(** * uhd::dict: the insertion-ordered dictionary of host/include/uhd/types/dict.hpp

    A shallow embedding of the class template [uhd::dict<Key, Val>] and
    the properties of its storage discipline, lookup, mutation and error
    behaviour.

    Conventions of the embedding:
    - the private container [std::list<pair_t> _map] is a [list (Key * Val)],
      [push_back] appends at the end;
    - [Key]'s [operator==] is a decidable equality and [operator!=] its
      negation;
    - a method that may [throw] yields an [outcome]; a non-const method
      is a function from the dictionary before the call to the outcome and
      the dictionary after it;
    - a [Val &] into the container is the position of its pair in [_map]
      (references into a [std::list] stay valid while the pair is stored);
    - [Val()], [boost::lexical_cast<std::string>] on keys and the two
      [typeid(...).name()] strings are parameters. *)

From stdpp Require Import base option list strings.
From Stdlib Require Import ZArith.

Module uhd.

(** ** Exceptions *)

(** The objects of the [std::exception] hierarchy this header creates,
    by dynamic type. A [std::exception] stores no message of its own;
    a [std::out_of_range] stores the one it was constructed with. *)
Inductive exception : Type :=
  | std_exception
  | std_out_of_range (what_arg : string).

(** What [what()] answers on an object whose dynamic type is
    [std::exception] itself: an implementation-defined text that does
    not depend on how the object came to be; this is the one of
    libstdc++ and libc++. *)
Definition exception_what : string := "std::exception".

Definition what (e : exception) : string :=
  match e with
  | std_exception => exception_what
  | std_out_of_range what_arg => what_arg
  end.

(** Copy-initialisation of a [std::exception] from an object of the
    hierarchy, as a [return] statement does in a function whose return
    type is [std::exception]: the copy constructor of the base class
    receives the base subobject, so the new object has dynamic type
    [std::exception] and none of the members of the derived class. *)
Definition to_std_exception (e : exception) : exception := std_exception.

Inductive outcome (A : Type) : Type :=
  | Returned (a : A)
  | Thrown (e : exception).
Arguments Returned {A} a.
Arguments Thrown {A} e.

Definition dquote : string := String (Ascii.ascii_of_nat 34) EmptyString.

Definition push_back {A : Type} (l : list A) (x : A) : list A := l ++ [x].

Section dict.
Context {Key Val : Type} `{EqDecision Key}.

(** [Val()], the value-initialised [Val]. *)
Variable Val_default : Val.
(** [boost::lexical_cast<std::string>(key)]. *)
Variable lexical_cast : Key → string.
(** [typeid(Key).name()] and [typeid(Val).name()]. *)
Variables typeid_Key typeid_Val : string.

(** [typedef std::pair<Key, Val> pair_t;] *)
#[local] Abbreviation pair_t := (Key * Val)%type.

Record dict : Type := Dict { _map : list pair_t }.

(** A non-const method returning an [A]. *)
Definition method (A : Type) : Type := dict → outcome A * dict.

#[local] Instance method_ret : MRet method := λ A a d, (Returned a, d).
#[local] Instance method_bind : MBind method := λ A B f m d,
  match m d with
  | (Returned a, d') => f a d'
  | (Thrown e, d') => (Thrown e, d')
  end.

(** The dictionary a call leaves behind, and what it yields. *)
Definition exec {A : Type} (m : method A) (d : dict) : dict := (m d).2.
Definition eval {A : Type} (m : method A) (d : dict) : outcome A := (m d).1.

(** The text that [key_not_found_in_dict] formats with [boost::format]:
    the pattern has the key between double quotes, then the two type
    names. *)
Definition key_not_found_message (key : Key) : string :=
  "key " +:+ dquote +:+ lexical_cast key +:+ dquote +:+
  " not found in dict(" +:+ typeid_Key +:+ ", " +:+ typeid_Val +:+ ")".

(** [std::exception key_not_found_in_dict(const Key &key) const]: builds
    a [std::out_of_range] with the formatted text and returns it by value
    as a [std::exception]. *)
Definition key_not_found_in_dict (key : Key) : exception :=
  to_std_exception (std_out_of_range (key_not_found_message key)).

(** [dict(void)] *)
Definition dict_void : dict := Dict [].

(** [dict(InputIterator first, InputIterator last)]: one [push_back]
    per element of the range. *)
Definition dict_range (range : list pair_t) : dict :=
  Dict (foldl push_back [] range).

Definition size (d : dict) : nat := length (_map d).

Definition keys (d : dict) : list Key :=
  foldl (λ keys p, push_back keys p.1) [] (_map d).

Definition vals (d : dict) : list Val :=
  foldl (λ vals p, push_back vals p.2) [] (_map d).

(** The loop of [has_key]. *)
Fixpoint has_key_from (m : list pair_t) (key : Key) : bool :=
  match m with
  | [] => false
  | p :: m' => if decide (p.1 = key) then true else has_key_from m' key
  end.

Definition has_key (d : dict) (key : Key) : bool := has_key_from (_map d) key.

(** The loop of [operator[] const]; [None] when it runs to the end. *)
Fixpoint lookup_from (m : list pair_t) (key : Key) : option Val :=
  match m with
  | [] => None
  | p :: m' => if decide (p.1 = key) then Some p.2 else lookup_from m' key
  end.

(** [const Val &operator[](const Key &key) const] *)
Definition index_const (d : dict) (key : Key) : outcome Val :=
  match lookup_from (_map d) key with
  | Some v => Returned v
  | None => Thrown (key_not_found_in_dict key)
  end.

(** A [Val &] into [_map]: the position of the pair that holds it. *)
Definition ref : Type := nat.

Definition deref (d : dict) (r : ref) : option Val := snd <$> _map d !! r.

(** Assignment through a [Val &]: the pair keeps its key and place. *)
Definition assign (r : ref) (v : Val) : method () := λ d,
  (Returned (), Dict (alter (λ p : pair_t, (p.1, v)) r (_map d))).

(** The loop of the non-const [operator[]]: the reference it returns,
    [None] when it runs to the end. *)
Fixpoint ref_from (m : list pair_t) (key : Key) : option ref :=
  match m with
  | [] => None
  | p :: m' => if decide (p.1 = key) then Some 0 else S <$> ref_from m' key
  end.

(** [_map.back().second] *)
Definition back_ref (m : list pair_t) : ref := length m - 1.

(** [Val &operator[](const Key &key)] *)
Definition index_mut (key : Key) : method ref := λ d,
  match ref_from (_map d) key with
  | Some r => (Returned r, d)
  | None =>
      let m' := push_back (_map d) (key, Val_default) in
      (Returned (back_ref m'), Dict m')
  end.

(** The statement [d[key] = val;] *)
Definition index_write (key : Key) (val : Val) : method () :=
  r ← index_mut key; assign r val.

(** The loop of [pop]: the value of the erased pair and the list after
    [erase], [None] when the loop runs to the end. *)
Fixpoint pop_from (m : list pair_t) (key : Key) : option (Val * list pair_t) :=
  match m with
  | [] => None
  | p :: m' =>
      if decide (p.1 ≠ key)
      then prod_map id (cons p) <$> pop_from m' key
      else Some (p.2, m')
  end.

(** [Val pop(const Key &key)] *)
Definition pop (key : Key) : method Val := λ d,
  match pop_from (_map d) key with
  | Some (val, m') => (Returned val, Dict m')
  | None => (Thrown (key_not_found_in_dict key), d)
  end.

(** ** Mutating calls in sequence *)

Inductive mutation : Type :=
  | Write (key : Key) (val : Val)
  | Remove (key : Key).

(** The dictionary after one mutating call, whether it returned or threw. *)
Definition mutate (d : dict) (c : mutation) : dict :=
  match c with
  | Write key val => exec (index_write key val) d
  | Remove key => exec (pop key) d
  end.

Definition mutate_all (d : dict) (cs : list mutation) : dict := foldl mutate d cs.

(** The statements [d[k] = v;] for the pairs of a sequence, in order. *)
Definition writes (kvs : list pair_t) : list mutation :=
  (λ p : pair_t, Write p.1 p.2) <$> kvs.

(** The number of stored pairs whose key equals [key]. *)
Definition key_count (d : dict) (key : Key) : nat :=
  length (filter (λ p : pair_t, p.1 = key) (_map d)).

(** No stored pair has a key equal to [key]. *)
Definition absent (d : dict) (key : Key) : Prop :=
  ∀ p : pair_t, p ∈ _map d → p.1 ≠ key.

(** [key] is first stored at the pair [(key, val)], between [pre] and [post]. *)
Definition first_at (d : dict) (key : Key) (val : Val)
    (pre post : list pair_t) : Prop :=
  _map d = pre ++ (key, val) :: post ∧ key ∉ pre.*1.

End dict.

(** ** The instance [uhd::dict<std::string, int>] *)
Module string_int.

Definition Val_default : Z := 0.
Definition lexical_cast (key : string) : string := key.
Definition typeid_Key : string := "Ss".
Definition typeid_Val : string := "i".

Definition key_not_found_message : string → string :=
  uhd.key_not_found_message lexical_cast typeid_Key typeid_Val.
Definition key_not_found_in_dict : string → exception :=
  uhd.key_not_found_in_dict lexical_cast typeid_Key typeid_Val.
Definition index_const : dict → string → outcome Z :=
  uhd.index_const lexical_cast typeid_Key typeid_Val.
Definition index_mut : string → method ref := uhd.index_mut Val_default.
Definition index_write : string → Z → method () := uhd.index_write Val_default.
Definition pop : string → method Z :=
  uhd.pop lexical_cast typeid_Key typeid_Val.
Definition mutate_all : dict → list mutation → dict :=
  uhd.mutate_all Val_default lexical_cast typeid_Key typeid_Val.

(** A dictionary built from a range that names the key x twice. *)
Definition twice_x : dict := dict_range [("x", 1%Z); ("x", 2%Z)].

(** The dictionary built from the range x -> 10, y -> 20. *)
Definition x10_y20 : dict := dict_range [("x", 10%Z); ("y", 20%Z)].

End string_int.

End uhd.

Module uhd_facts.
Import uhd.

Section facts.
Context {Key Val : Type} `{EqDecision Key}.
Variable Val_default : Val.
Variable lexical_cast : Key → string.
Variables typeid_Key typeid_Val : string.

#[local] Abbreviation dict := (@dict Key Val).
#[local] Abbreviation dict_void := (@dict_void Key Val).
#[local] Abbreviation pair_t := (Key * Val)%type.
#[local] Abbreviation key_not_found_in_dict :=
  (key_not_found_in_dict lexical_cast typeid_Key typeid_Val).
#[local] Abbreviation index_const := (index_const lexical_cast typeid_Key typeid_Val).
#[local] Abbreviation pop := (pop lexical_cast typeid_Key typeid_Val).
#[local] Abbreviation index_mut := (index_mut Val_default).
#[local] Abbreviation index_write := (index_write Val_default).
#[local] Abbreviation mutate :=
  (mutate Val_default lexical_cast typeid_Key typeid_Val).
#[local] Abbreviation mutate_all :=
  (mutate_all Val_default lexical_cast typeid_Key typeid_Val).

Implicit Types (d : dict) (m : list pair_t) (key k : Key) (v val : Val).

Lemma foldl_push_back {A B : Type} (f : B → A) (l : list B) (acc : list A) :
  foldl (λ acc x, push_back acc (f x)) acc l = acc ++ (f <$> l).
Proof.
  revert acc. induction l as [|x l IH]; intros acc; simpl.
  - by rewrite app_nil_r.
  - rewrite IH. unfold push_back. by rewrite <-app_assoc.
Qed.

Lemma alter_middle {A : Type} (f : A → A) (pre post : list A) (x : A) :
  alter f (length pre) (pre ++ x :: post) = pre ++ f x :: post.
Proof.
  replace (length pre) with (length pre + 0) by lia. by rewrite alter_app_r.
Qed.

Lemma keys_fst d : keys d = (_map d).*1.
Proof. unfold keys. by rewrite foldl_push_back. Qed.

Lemma vals_snd d : vals d = (_map d).*2.
Proof. unfold vals. by rewrite foldl_push_back. Qed.

Lemma dict_range_map (range : list pair_t) : _map (dict_range range) = range.
Proof.
  unfold dict_range; simpl.
  etrans; [exact (foldl_push_back id range [])|]. simpl. apply list_fmap_id.
Qed.

(** *** The scans *)

Lemma has_key_from_true m k : has_key_from m k = true ↔ k ∈ m.*1.
Proof.
  induction m as [|[k' v'] m IH]; simpl.
  - split; [done | by intros ?%elem_of_nil].
  - rewrite elem_of_cons. case_decide; simpl in *; rewrite ?IH; intuition congruence.
Qed.

Lemma has_key_from_false m k : has_key_from m k = false ↔ k ∉ m.*1.
Proof. rewrite <-has_key_from_true. by destruct (has_key_from m k). Qed.

Lemma lookup_from_None m k : lookup_from m k = None ↔ k ∉ m.*1.
Proof.
  induction m as [|[k' v'] m IH]; simpl.
  - split; [by intros _ ?%elem_of_nil | done].
  - rewrite not_elem_of_cons. case_decide; simpl in *; rewrite ?IH; intuition congruence.
Qed.

Lemma lookup_from_Some m k v :
  lookup_from m k = Some v ↔
  ∃ pre post, m = pre ++ (k, v) :: post ∧ k ∉ pre.*1.
Proof.
  induction m as [|[k' v'] m IH]; simpl.
  - split; [done | by intros ([|??] & ? & ? & _)].
  - case_decide as Hk; simpl in *.
    + subst k'. split.
      * intros [= ->]. exists [], m. split; [done | apply not_elem_of_nil].
      * intros ([|[k1 v1] pre] & post & Heq & Hpre); simplify_eq/=; [done |].
        exfalso. apply Hpre. left.
    + rewrite IH. split.
      * intros (pre & post & -> & Hpre). exists ((k', v') :: pre), post.
        split; [done |]. simpl. rewrite not_elem_of_cons. auto.
      * intros ([|[k1 v1] pre] & post & Heq & Hpre); simplify_eq/=.
        exists pre, post. split; [done |].
        by apply not_elem_of_cons in Hpre as [_ ?].
Qed.

Lemma lookup_from_app_first pre post k v :
  k ∉ pre.*1 → lookup_from (pre ++ (k, v) :: post) k = Some v.
Proof. intros. apply lookup_from_Some. eauto. Qed.

Lemma ref_from_None m k : ref_from m k = None ↔ k ∉ m.*1.
Proof.
  induction m as [|[k' v'] m IH]; simpl.
  - split; [by intros _ ?%elem_of_nil | done].
  - rewrite not_elem_of_cons. case_decide; simpl in *; [intuition congruence |].
    rewrite fmap_None, IH. intuition congruence.
Qed.

Lemma ref_from_Some m k r :
  ref_from m k = Some r ↔
  ∃ pre v post, m = pre ++ (k, v) :: post ∧ (k ∉ pre.*1) ∧ r = length pre.
Proof.
  revert r. induction m as [|[k' v'] m IH]; intros r; simpl.
  - split; [done | by intros ([|??] & ? & ? & ? & _)].
  - case_decide as Hk; simpl in *.
    + subst k'. split.
      * intros [= <-]. exists [], v', m. split_and!; [done | apply not_elem_of_nil | done].
      * intros ([|[k1 v1] pre] & v & post & Heq & Hpre & ->); simplify_eq/=; [done |].
        exfalso. apply Hpre. left.
    + rewrite fmap_Some. split.
      * intros (r' & Hr' & ->).
        apply IH in Hr' as (pre & v & post & -> & Hpre & ->).
        exists ((k', v') :: pre), v, post.
        split_and!; [done | | done]. simpl. rewrite not_elem_of_cons. auto.
      * intros ([|[k1 v1] pre] & v & post & Heq & Hpre & ->); simplify_eq/=.
        exists (length pre). split; [| done]. apply IH.
        exists pre, v, post. split_and!; [done | | done].
        by apply not_elem_of_cons in Hpre as [_ ?].
Qed.

Lemma pop_from_None m k : pop_from m k = None ↔ k ∉ m.*1.
Proof.
  induction m as [|[k' v'] m IH]; simpl.
  - split; [by intros _ ?%elem_of_nil | done].
  - rewrite not_elem_of_cons. case_decide; simpl in *; [| intuition congruence].
    rewrite fmap_None, IH. intuition congruence.
Qed.

Lemma pop_from_Some m k v m' :
  pop_from m k = Some (v, m') ↔
  ∃ pre post, m = pre ++ (k, v) :: post ∧ (k ∉ pre.*1) ∧ m' = pre ++ post.
Proof.
  revert m'. induction m as [|[k' v'] m IH]; intros m'; simpl.
  - split; [done | by intros ([|??] & ? & ? & _)].
  - case_decide as Hk; simpl in *.
    + rewrite fmap_Some. split.
      * intros ([v1 m1] & Hpop & [= -> ->]).
        apply IH in Hpop as (pre & post & -> & Hpre & ->).
        exists ((k', v') :: pre), post.
        split_and!; [done | | done]. simpl. rewrite not_elem_of_cons. auto.
      * intros ([|[k1 v1] pre] & post & Heq & Hpre & ->); simplify_eq/=.
        exists (v, pre ++ post). split; [| done]. apply IH.
        exists pre, post. split_and!; [done | | done].
        by apply not_elem_of_cons in Hpre as [_ ?].
    + subst k'. split.
      * intros [= -> ->]. exists [], m'. split_and!; [done | apply not_elem_of_nil | done].
      * intros ([|[k1 v1] pre] & post & Heq & Hpre & ->); simplify_eq/=; [done |].
        exfalso. apply Hpre. left.
Qed.

Lemma absent_keys d k : absent d k ↔ k ∉ keys d.
Proof.
  rewrite keys_fst, list_elem_of_fmap. unfold absent. split.
  - intros Hd ([k' v'] & -> & Hin). by apply (Hd _ Hin).
  - intros Hd p Hin <-. apply Hd. by exists p.
Qed.

Lemma index_const_Returned d k v :
  index_const d k = Returned v ↔ lookup_from (_map d) k = Some v.
Proof.
  unfold index_const, uhd.index_const.
  destruct (lookup_from (_map d) k); split; congruence.
Qed.

Lemma index_const_Thrown d k e :
  index_const d k = Thrown e ↔
  lookup_from (_map d) k = None ∧ e = key_not_found_in_dict k.
Proof.
  unfold index_const, uhd.index_const.
  destruct (lookup_from (_map d) k); split; try intros [??]; try split; congruence.
Qed.

(** *** The indexed write [d[key] = val] *)

Lemma index_write_map d k v :
  _map (exec (index_write k v) d) =
  match ref_from (_map d) k with
  | Some r => alter (λ p : pair_t, (p.1, v)) r (_map d)
  | None => _map d ++ [(k, v)]
  end.
Proof.
  unfold exec, index_write, uhd.index_write, mbind, method_bind, uhd.index_mut.
  destruct (ref_from (_map d) k) as [r|]; simpl; [done |].
  unfold back_ref, push_back. rewrite length_app; simpl.
  replace (length (_map d) + 1 - 1) with (length (_map d)) by lia.
  by rewrite alter_middle.
Qed.

Lemma index_write_present d k v v0 pre post :
  first_at d k v0 pre post →
  _map (exec (index_write k v) d) = pre ++ (k, v) :: post.
Proof.
  intros [Hm Hpre]. rewrite index_write_map.
  assert (ref_from (_map d) k = Some (length pre)) as ->.
  { apply ref_from_Some. by exists pre, v0, post. }
  by rewrite Hm, alter_middle.
Qed.

Lemma index_write_absent d k v :
  k ∉ (_map d).*1 → _map (exec (index_write k v) d) = _map d ++ [(k, v)].
Proof.
  intros Hk. rewrite index_write_map.
  by apply ref_from_None in Hk as ->.
Qed.

Lemma index_write_first d k v :
  ∃ pre post, first_at (exec (index_write k v) d) k v pre post.
Proof.
  destruct (ref_from (_map d) k) as [r|] eqn:Hr.
  - apply ref_from_Some in Hr as (pre & v0 & post & Hm & Hpre & _).
    exists pre, post. split; [| done].
    by apply (index_write_present _ _ _ v0).
  - apply ref_from_None in Hr. exists (_map d), []. split; [| done].
    by apply index_write_absent.
Qed.

Lemma keys_index_write d k v :
  keys (exec (index_write k v) d) =
  if decide (k ∈ keys d) then keys d else keys d ++ [k].
Proof.
  rewrite !keys_fst. case_decide as Hk.
  - assert (is_Some (ref_from (_map d) k)) as [r Hr].
    { apply not_eq_None_Some. intros Hn%ref_from_None. by apply Hn. }
    apply ref_from_Some in Hr as (pre & v0 & post & Hm & Hpre & _).
    rewrite (index_write_present d k v v0 pre post), Hm by done.
    by rewrite !fmap_app.
  - rewrite index_write_absent by done. by rewrite fmap_app.
Qed.

(** *** Claims *)

(** C7. The range constructor appends verbatim: a dictionary built from
    a sequence of pairs stores exactly those pairs in the given order,
    so [size] is the length of the sequence; nothing is deduplicated, a
    key given twice is stored twice. *)
Theorem range_constructor_verbatim (range : list pair_t) :
  _map (dict_range range) = range ∧
  size (dict_range range) = length range ∧
  ∀ k v1 v2, range = [(k, v1); (k, v2)] →
    size (dict_range range) = 2 ∧ key_count (dict_range range) k = 2.
Proof.
  unfold size, key_count. rewrite dict_range_map. split_and!; [done.. |].
  intros k v1 v2 ->. split; [done |].
  by rewrite !filter_cons_True.
Qed.

(** C10. [keys] and [vals] are aligned snapshots: both have [size]
    elements, and position [i] of [keys] and position [i] of [vals]
    hold the key and the value of the [i]-th stored pair. *)
Theorem snapshot_alignment d :
  length (keys d) = size d ∧ length (vals d) = size d ∧
  ∀ i k v,
    keys d !! i = Some k ∧ vals d !! i = Some v ↔ _map d !! i = Some (k, v).
Proof.
  rewrite keys_fst, vals_snd. unfold size.
  rewrite !length_fmap. split_and!; [done.. |].
  intros i k v. rewrite !list_lookup_fmap.
  destruct (_map d !! i) as [[k' v']|]; simpl.
  - split; [intros [[= ->] [= ->]] | intros [= -> ->]]; done.
  - split; [intros [[=] _] | intros [=]].
Qed.

(** C3. [operator[] const] returns the value of the first stored pair,
    in insertion order, whose key equals the argument; right after
    [d[k] = v] the lookup of [k] returns [v] and [has_key] is true. *)
Theorem lookup_first_match_and_round_trip d k v :
  (index_const d k = Returned v ↔ ∃ pre post, first_at d k v pre post) ∧
  index_const (exec (index_write k v) d) k = Returned v ∧
  has_key (exec (index_write k v) d) k = true.
Proof.
  split_and!.
  - rewrite index_const_Returned. apply lookup_from_Some.
  - apply index_const_Returned, lookup_from_Some, index_write_first.
  - destruct (index_write_first d k v) as (pre & post & Hm & _).
    apply has_key_from_true. rewrite Hm, fmap_app, elem_of_app.
    right. left.
Qed.

(** C4. [operator[] const] and [pop] throw the key-not-found exception
    exactly when no stored pair has a key equal to the argument; on the
    empty dictionary both throw for every key. *)
Theorem not_found_failure d k :
  (index_const d k = Thrown (key_not_found_in_dict k) ↔ absent d k) ∧
  (eval (pop k) d = Thrown (key_not_found_in_dict k) ↔ absent d k) ∧
  index_const dict_void k = Thrown (key_not_found_in_dict k) ∧
  eval (pop k) dict_void = Thrown (key_not_found_in_dict k).
Proof.
  split_and!; [| | done..].
  - rewrite absent_keys, keys_fst, <-lookup_from_None, index_const_Thrown.
    intuition congruence.
  - rewrite absent_keys, keys_fst, <-pop_from_None.
    unfold eval, pop, uhd.pop.
    destruct (pop_from (_map d) k) as [[??]|]; simpl; intuition congruence.
Qed.

(** C9. A failed removal is atomic: when no stored pair has a key equal
    to [k], [pop] throws the key-not-found exception and the sequence of
    stored pairs is what it was. *)
Theorem failed_pop_atomic d k :
  absent d k →
  pop k d = (Thrown (key_not_found_in_dict k), d) ∧
  _map (exec (pop k) d) = _map d ∧ size (exec (pop k) d) = size d.
Proof.
  rewrite absent_keys, keys_fst, <-pop_from_None. intros Hk.
  unfold exec, pop, uhd.pop. by rewrite Hk.
Qed.

(** *** Counting the pairs of a key *)

Lemma key_filter_absent m k : k ∉ m.*1 → filter (λ p : pair_t, p.1 = k) m = [].
Proof.
  induction m as [|[k' v'] m IH]; simpl; [done |].
  rewrite not_elem_of_cons. intros [Hk Hm].
  rewrite filter_cons_False by (simpl; congruence). auto.
Qed.

Lemma key_filter_present m k :
  k ∈ m.*1 → 1 ≤ length (filter (λ p : pair_t, p.1 = k) m).
Proof.
  induction m as [|[k' v'] m IH]; simpl; [by intros ?%elem_of_nil |].
  rewrite filter_cons. case_decide; simpl in *; [lia |].
  rewrite elem_of_cons. intros [-> | Hm]; [done | auto].
Qed.

Lemma key_filter_NoDup m k :
  NoDup m.*1 → length (filter (λ p : pair_t, p.1 = k) m) ≤ 1.
Proof.
  induction m as [|[k' v'] m IH]; simpl; [intros _; lia |].
  rewrite NoDup_cons. intros [Hk' Hm].
  rewrite filter_cons. case_decide; simpl in *; [| auto].
  subst k'. by rewrite key_filter_absent.
Qed.

Lemma key_count_app_first d k v pre post :
  first_at d k v pre post →
  key_count d k = S (length (filter (λ p : pair_t, p.1 = k) post)).
Proof.
  intros [Hm Hpre]. unfold key_count.
  rewrite Hm, filter_app, key_filter_absent by done.
  by rewrite filter_cons_True.
Qed.

(** *** Uniqueness of keys under the mutating calls *)

Lemma pop_map d k :
  _map (exec (pop k) d) =
  match pop_from (_map d) k with Some (_, m') => m' | None => _map d end.
Proof.
  unfold exec, pop, uhd.pop. by destruct (pop_from (_map d) k) as [[??]|].
Qed.

Lemma NoDup_keys_index_write d k v :
  NoDup (keys d) → NoDup (keys (exec (index_write k v) d)).
Proof.
  intros Hd. rewrite keys_index_write. case_decide as Hk; [done |].
  apply NoDup_app. split_and!; [done | | apply NoDup_singleton].
  intros k' Hk' ->%list_elem_of_singleton. done.
Qed.

Lemma NoDup_keys_pop d k : NoDup (keys d) → NoDup (keys (exec (pop k) d)).
Proof.
  rewrite !keys_fst, pop_map.
  destruct (pop_from (_map d) k) as [[v m']|] eqn:Hpop; [| done].
  apply pop_from_Some in Hpop as (pre & post & -> & _ & ->).
  rewrite !fmap_app, fmap_cons, !NoDup_app, NoDup_cons.
  intros (Hpre & Hdisj & _ & Hpost). split_and!; [done | | done].
  intros k' Hk' Hin. apply (Hdisj k' Hk'). by right.
Qed.

Lemma NoDup_keys_mutate_all d cs :
  NoDup (keys d) → NoDup (keys (mutate_all d cs)).
Proof.
  revert d. induction cs as [|c cs IH]; intros d Hd; simpl; [done |].
  apply IH. destruct c as [k v|k]; simpl.
  - by apply NoDup_keys_index_write.
  - by apply NoDup_keys_pop.
Qed.

(** C1, amended. Starting from a dictionary whose stored keys are
    pairwise distinct, after any sequence of indexed writes and removals
    at most one stored pair has a key equal to any given key; and after
    writing [k] twice, with [v1] then [v2], the lookup of [k] returns
    [v2], the second write leaves [size] as it was and [k] is stored in
    exactly one pair. *)
Theorem key_uniqueness d (cs : list mutation) k v1 v2 :
  NoDup (keys d) →
  let d0 := mutate_all d cs in
  let d1 := exec (index_write k v1) d0 in
  let d2 := exec (index_write k v2) d1 in
  (∀ k', key_count d0 k' ≤ 1) ∧
  index_const d2 k = Returned v2 ∧ size d2 = size d1 ∧ key_count d2 k = 1.
Proof.
  intros Hd d0 d1 d2.
  assert (NoDup (keys d0)) as Hd0 by by apply NoDup_keys_mutate_all.
  split_and!.
  - intros k'. apply key_filter_NoDup. by rewrite <-keys_fst.
  - apply index_const_Returned, lookup_from_Some, index_write_first.
  - destruct (index_write_first d0 k v1) as (pre & post & Hd1).
    unfold size, d2. rewrite (index_write_present d1 k v2 v1 pre post Hd1).
    destruct Hd1 as [Hm _]. unfold d1. rewrite Hm. by rewrite !length_app.
  - assert (NoDup (keys d2)) as Hd2 by by do 2 apply NoDup_keys_index_write.
    rewrite keys_fst in Hd2. apply (key_filter_NoDup _ k) in Hd2.
    destruct (index_write_first d1 k v2) as (pre & post & Hfirst).
    fold d2 in Hfirst. rewrite (key_count_app_first _ _ _ _ _ Hfirst).
    unfold key_count in Hd2. destruct Hfirst as [Hm Hpre].
    rewrite Hm, filter_app, length_app, filter_cons_True in Hd2 by done.
    simpl in Hd2. lia.
Qed.

(** *** Order of the keys *)

Lemma keys_writes_fresh d (kvs : list pair_t) :
  NoDup (keys d ++ kvs.*1) →
  keys (mutate_all d (writes kvs)) = keys d ++ kvs.*1.
Proof.
  revert d. induction kvs as [|[k v] kvs IH]; intros d Hnd; simpl.
  - by rewrite app_nil_r.
  - assert (keys (exec (index_write k v) d) = keys d ++ [k]) as Hk.
    { rewrite keys_index_write. case_decide as Hin; [| done].
      apply NoDup_app in Hnd as (_ & Hdisj & _).
      destruct (Hdisj k Hin). left. }
    rewrite IH; rewrite Hk, <-app_assoc; done.
Qed.

Lemma keys_writes_present d (ups : list pair_t) :
  Forall (λ u, u.1 ∈ keys d) ups → keys (mutate_all d (writes ups)) = keys d.
Proof.
  revert d. induction ups as [|[k v] ups IH]; intros d Hups; simpl; [done |].
  apply Forall_cons in Hups as [Hk Hups]. simpl in Hk.
  assert (keys (exec (index_write k v) d) = keys d) as Hkeys.
  { rewrite keys_index_write. by rewrite decide_True. }
  rewrite IH; rewrite Hkeys; done.
Qed.

(** C2. Order preservation: writing the pairwise distinct keys
    [k1 .. kn] in that order into the empty dictionary makes [keys]
    return exactly [k1 .. kn], and further indexed writes to keys
    already present leave that order as it is. *)
Theorem order_preservation (kvs ups : list pair_t) :
  NoDup kvs.*1 →
  Forall (λ u, u.1 ∈ kvs.*1) ups →
  keys (mutate_all dict_void (writes kvs)) = kvs.*1 ∧
  keys (mutate_all (mutate_all dict_void (writes kvs)) (writes ups)) = kvs.*1.
Proof.
  intros Hnd Hups.
  assert (keys (mutate_all dict_void (writes kvs)) = kvs.*1) as Hkeys.
  { by rewrite keys_writes_fresh. }
  split; [done |]. rewrite keys_writes_present; by rewrite Hkeys.
Qed.

(** *** Removal *)

(** C5, amended. For a key [k] present with value [v], [pop] returns
    [v] and erases exactly the first pair whose key is [k], the other
    pairs keeping their relative order; when no other stored pair has
    the key [k], afterwards [has_key] is false and the lookup of [k]
    throws the key-not-found exception. *)
Theorem removal_postcondition d k v :
  index_const d k = Returned v →
  ∃ pre post, first_at d k v pre post ∧
    pop k d = (Returned v, Dict (pre ++ post)) ∧
    (key_count d k = 1 →
     has_key (exec (pop k) d) k = false ∧
     index_const (exec (pop k) d) k = Thrown (key_not_found_in_dict k)).
Proof.
  rewrite index_const_Returned, lookup_from_Some.
  intros (pre & post & Hm & Hpre). exists pre, post.
  assert (pop_from (_map d) k = Some (v, pre ++ post)) as Hpop.
  { apply pop_from_Some. by exists pre, post. }
  assert (pop k d = (Returned v, Dict (pre ++ post))) as Hcall.
  { unfold pop, uhd.pop. by rewrite Hpop. }
  split_and!; [done.. |].
  intros Hcount. rewrite (key_count_app_first d k v pre post) in Hcount by done.
  assert (k ∉ (pre ++ post).*1) as Hgone.
  { rewrite fmap_app, elem_of_app. intros [? | Hpost]; [done |].
    apply key_filter_present in Hpost. lia. }
  unfold exec. rewrite Hcall. simpl. split.
  - by apply has_key_from_false.
  - apply index_const_Thrown. split; [| done]. by apply lookup_from_None.
Qed.

(** *** The non-const [operator[]] *)

(** C6. The non-const [operator[]] always returns: for an absent key it
    appends the pair of the key and [Val()] at the end of the sequence
    and returns a reference to that value, for a present key it leaves
    the dictionary as it is and returns a reference to the stored
    value; what is assigned through the reference is what the lookup of
    the key returns afterwards. *)
Theorem index_mut_get_or_insert d k :
  ∃ r d', index_mut k d = (Returned r, d') ∧
    (absent d k →
     d' = Dict (_map d ++ [(k, Val_default)]) ∧ r = size d ∧
     deref d' r = Some Val_default) ∧
    (∀ v, index_const d k = Returned v → d' = d ∧ deref d r = Some v) ∧
    (∀ w, deref (exec (assign r w) d') r = Some w ∧
          index_const (exec (assign r w) d') k = Returned w).
Proof.
  unfold uhd.index_mut, deref, exec, assign. simpl.
  destruct (ref_from (_map d) k) as [r|] eqn:Hr.
  - exists r, d. split; [done |].
    apply ref_from_Some in Hr as (pre & v0 & post & Hm & Hpre & ->).
    split_and!.
    + rewrite absent_keys, keys_fst, Hm, fmap_app, elem_of_app.
      intros []. right. left.
    + intros v Hv. split; [done |].
      apply index_const_Returned in Hv.
      rewrite Hm, lookup_from_app_first in Hv by done.
      rewrite Hm, list_lookup_middle by done. simpl. congruence.
    + intros w. simpl. rewrite Hm, alter_middle. simpl.
      rewrite list_lookup_middle by done. split; [done |].
      apply index_const_Returned. simpl. by rewrite lookup_from_app_first.
  - apply ref_from_None in Hr.
    assert (back_ref (push_back (_map d) (k, Val_default)) = length (_map d))
      as Hback.
    { unfold back_ref, push_back. rewrite length_app. simpl. lia. }
    eexists _, _. split; [done |]. rewrite Hback. unfold push_back.
    split_and!.
    + intros _. simpl. split_and!; [done.. |].
      by rewrite list_lookup_middle.
    + intros v Hv%index_const_Returned.
      apply lookup_from_None in Hr. congruence.
    + intros w. simpl. rewrite alter_middle. simpl.
      rewrite list_lookup_middle by done. split; [done |].
      apply index_const_Returned. simpl. by rewrite lookup_from_app_first.
Qed.

(** *** The exception of a missing key *)

Lemma key_not_found_sliced k1 k2 :
  key_not_found_in_dict k1 = key_not_found_in_dict k2 ∧
  what (key_not_found_in_dict k1) = exception_what.
Proof. done. Qed.

(** ** Further properties of the methods *)

(** *** One step of each loop *)

Lemma dict_eq d1 d2 : _map d1 = _map d2 → d1 = d2.
Proof. destruct d1, d2; simpl; congruence. Qed.

Lemma index_write_nil k v : _map (exec (index_write k v) (Dict [])) = [(k, v)].
Proof. by rewrite index_write_map. Qed.

Lemma index_write_cons p m k v :
  _map (exec (index_write k v) (Dict (p :: m))) =
  if decide (p.1 = k) then (p.1, v) :: m
  else p :: _map (exec (index_write k v) (Dict m)).
Proof.
  rewrite !index_write_map. simpl. case_decide; [done |].
  by destruct (ref_from m k).
Qed.

Lemma index_write_eta d k v :
  exec (index_write k v) d = Dict (_map (exec (index_write k v) (Dict (_map d)))).
Proof. apply dict_eq. by destruct d. Qed.

Lemma pop_cons p m k :
  _map (exec (pop k) (Dict (p :: m))) =
  if decide (p.1 = k) then m else p :: _map (exec (pop k) (Dict m)).
Proof.
  rewrite !pop_map. simpl. destruct (decide (p.1 = k)) as [Hk | Hk].
  - by rewrite decide_False by (by intros ?).
  - rewrite decide_True by done. by destruct (pop_from m k) as [[??]|].
Qed.

Lemma pop_eta d k : exec (pop k) d = Dict (_map (exec (pop k) (Dict (_map d)))).
Proof. apply dict_eq. by destruct d. Qed.

Lemma has_key_lookup m k :
  has_key_from m k =
  match lookup_from m k with Some _ => true | None => false end.
Proof. induction m as [|p m IH]; simpl; [done |]. by case_decide. Qed.

Lemma index_const_lookup d1 d2 k :
  lookup_from (_map d1) k = lookup_from (_map d2) k →
  index_const d1 k = index_const d2 k ∧ has_key d1 k = has_key d2 k.
Proof.
  intros Heq. unfold uhd.index_const, has_key.
  by rewrite !has_key_lookup, Heq.
Qed.

Lemma lookup_index_write d k v k' :
  k' ≠ k →
  lookup_from (_map (exec (index_write k v) d)) k' = lookup_from (_map d) k'.
Proof.
  intros Hk'. destruct d as [m]. induction m as [|p m IH].
  - rewrite index_write_nil. simpl. by rewrite decide_False.
  - rewrite index_write_cons. simpl in *.
    destruct (decide (p.1 = k)) as [Hp | Hp]; simpl.
    + by rewrite !decide_False by congruence.
    + case_decide; [done | apply IH].
Qed.

Lemma lookup_pop d k k' :
  k' ≠ k → lookup_from (_map (exec (pop k) d)) k' = lookup_from (_map d) k'.
Proof.
  intros Hk'. destruct d as [m]. induction m as [|p m IH]; [done |].
  rewrite pop_cons. simpl in *.
  destruct (decide (p.1 = k)) as [Hp | Hp]; simpl.
  - by rewrite decide_False by congruence.
  - case_decide; [done | apply IH].
Qed.

Lemma size_keys d : size d = length (keys d).
Proof. by rewrite keys_fst, length_fmap. Qed.

Lemma has_key_count d k : has_key d k = true ↔ 1 ≤ key_count d k.
Proof.
  unfold has_key, key_count. rewrite has_key_from_true. split.
  - apply key_filter_present.
  - intros Hn. destruct (decide (k ∈ (_map d).*1)) as [|Hk]; [done |].
    rewrite key_filter_absent in Hn by done. simpl in Hn. lia.
Qed.

Lemma filter_other_key (l : list Key) k :
  k ∉ l → filter (λ k', k' ≠ k) l = l.
Proof.
  induction l as [|k0 l IH]; [done |].
  rewrite not_elem_of_cons. intros [Hk0 Hl].
  rewrite filter_cons_True by congruence. by rewrite IH.
Qed.

Lemma map_writes_fresh d (kvs : list pair_t) :
  NoDup ((_map d).*1 ++ kvs.*1) →
  _map (mutate_all d (writes kvs)) = _map d ++ kvs.
Proof.
  revert d. induction kvs as [|[k v] kvs IH]; intros d Hnd; simpl.
  - by rewrite app_nil_r.
  - assert (_map (exec (index_write k v) d) = _map d ++ [(k, v)]) as Hk.
    { apply index_write_absent. apply NoDup_app in Hnd as (_ & Hdisj & _).
      intros Hin. destruct (Hdisj k Hin). left. }
    rewrite IH; rewrite Hk; [by rewrite <-app_assoc |].
    by rewrite fmap_app, <-app_assoc.
Qed.

Lemma lookup_writes_other d (kvs : list pair_t) k :
  k ∉ kvs.*1 →
  lookup_from (_map (mutate_all d (writes kvs))) k = lookup_from (_map d) k.
Proof.
  revert d. induction kvs as [|[k' v'] kvs IH]; intros d; simpl; [done |].
  rewrite not_elem_of_cons. intros [Hk Hkvs].
  rewrite IH by done. by apply lookup_index_write.
Qed.

(** *** Membership and lookup *)

(** X1. [has_key] answers true exactly for the keys [keys] lists, which
    are exactly the keys [operator[] const] returns a value for; it
    answers false exactly when that lookup throws. *)
Theorem has_key_agrees_with_lookup d k :
  (has_key d k = true ↔ k ∈ keys d) ∧
  (has_key d k = true ↔ ∃ v, index_const d k = Returned v) ∧
  (has_key d k = false ↔ index_const d k = Thrown (key_not_found_in_dict k)).
Proof.
  unfold has_key, uhd.index_const. rewrite has_key_lookup, keys_fst.
  split_and!.
  - rewrite <-has_key_from_true, has_key_lookup. done.
  - destruct (lookup_from (_map d) k) as [v|]; split; try done.
    + intros _. by exists v.
    + by intros [? [=]].
  - destruct (lookup_from (_map d) k) as [v|]; split; done.
Qed.

(** X2. An indexed write to [k] changes the lookup of no other key:
    for [k'] different from [k], [operator[] const] and [has_key]
    answer after the write what they answered before. *)
Theorem index_write_frame d k v k' :
  k' ≠ k →
  index_const (exec (index_write k v) d) k' = index_const d k' ∧
  has_key (exec (index_write k v) d) k' = has_key d k'.
Proof. intros Hk'. by apply index_const_lookup, lookup_index_write. Qed.

(** X3. A removal of [k], whether it returns or throws, changes the
    lookup of no other key. *)
Theorem pop_frame d k k' :
  k' ≠ k →
  index_const (exec (pop k) d) k' = index_const d k' ∧
  has_key (exec (pop k) d) k' = has_key d k'.
Proof. intros Hk'. by apply index_const_lookup, lookup_pop. Qed.

(** X4. An indexed write to a key the dictionary has leaves [size] and
    [keys] as they are; a write to a key it does not have adds one to
    [size] and puts the key at the end of [keys]. *)
Theorem index_write_size_keys d k v :
  size (exec (index_write k v) d) = (if has_key d k then size d else S (size d)) ∧
  keys (exec (index_write k v) d) = (if has_key d k then keys d else keys d ++ [k]).
Proof.
  rewrite !size_keys, keys_index_write. unfold has_key.
  destruct (has_key_from (_map d) k) eqn:Hhas.
  - apply has_key_from_true in Hhas. rewrite <-keys_fst in Hhas.
    by rewrite decide_True.
  - apply has_key_from_false in Hhas. rewrite <-keys_fst in Hhas.
    rewrite decide_False by done. rewrite length_app. simpl. split; [lia | done].
Qed.

(** X5. [pop] takes exactly one pair away when the key is stored, and
    none when it is not. *)
Theorem pop_size d k :
  size (exec (pop k) d) = (if has_key d k then size d - 1 else size d).
Proof.
  unfold size, has_key. destruct d as [m]. induction m as [|p m IH]; [done |].
  rewrite pop_cons. simpl in *. case_decide; simpl; [lia |].
  rewrite IH. destruct (has_key_from m k) eqn:Hhas; [| done].
  apply has_key_from_true in Hhas.
  destruct m; [by apply elem_of_nil in Hhas | simpl; lia].
Qed.

(** X6. [pop] lowers the number of pairs stored under the removed key by
    one and leaves the number under every other key; so the key is still
    there after its removal exactly when it was stored at least twice. *)
Theorem pop_key_count d k :
  (∀ k', key_count (exec (pop k) d) k' =
         if decide (k' = k) then key_count d k - 1 else key_count d k') ∧
  (has_key (exec (pop k) d) k = true ↔ 2 ≤ key_count d k).
Proof.
  assert (∀ k', key_count (exec (pop k) d) k' =
                if decide (k' = k) then key_count d k - 1 else key_count d k')
    as Hcount.
  { intros k'. unfold key_count. destruct d as [m].
    induction m as [|p m IH]; [by case_decide |].
    rewrite pop_cons. simpl in *. rewrite (filter_cons _ p m).
    destruct (decide (p.1 = k)) as [Hp | Hp]; simpl.
    - destruct (decide (k' = k)) as [Hk' | Hk'].
      + subst k'. lia.
      + rewrite filter_cons. by rewrite decide_False by congruence.
    - rewrite !filter_cons.
      destruct (decide (k' = k)) as [Hk' | Hk'].
      + by rewrite decide_False by congruence.
      + destruct (decide (p.1 = k')); simpl; by rewrite IH.  }
  split; [done |].
  rewrite has_key_count, Hcount, decide_True by done. lia.
Qed.

(** X7. [pop] yields what [operator[] const] yields for the same key:
    the value of the first pair with that key, or the same exception. *)
Theorem pop_yields_lookup d k : eval (pop k) d = index_const d k.
Proof.
  unfold eval, uhd.pop, uhd.index_const.
  assert (fst <$> pop_from (_map d) k = lookup_from (_map d) k) as Hfst.
  { induction (_map d) as [|p m IH]; simpl; [done |].
    destruct (decide (p.1 = k)) as [Hp | Hp].
    - by rewrite decide_False by (by intros ?).
    - rewrite decide_True by done. rewrite <-IH.
      by destruct (pop_from m k) as [[??]|]. }
  destruct (pop_from (_map d) k) as [[v m']|]; simpl in Hfst;
    by rewrite <-Hfst.
Qed.

(** X8. Of two indexed writes to the same key the last one wins: the
    dictionary after both is the dictionary after the second alone. *)
Theorem index_write_last_wins d k v1 v2 :
  exec (index_write k v2) (exec (index_write k v1) d)
  = exec (index_write k v2) d.
Proof.
  apply dict_eq. rewrite (index_write_eta d k v1).
  destruct d as [m]. simpl. induction m as [|p m IH].
  - rewrite index_write_nil, index_write_cons, index_write_nil. simpl.
    by rewrite decide_True.
  - rewrite (index_write_cons p m k v1), (index_write_cons p m k v2).
    destruct (decide (p.1 = k)) as [Hp | Hp].
    + rewrite index_write_cons. simpl. by rewrite decide_True.
    + rewrite index_write_cons. rewrite decide_False by done. by rewrite IH.
Qed.

(** X9. Writing a key the dictionary does not have and removing it
    again gives the written value back and restores the dictionary. *)
Theorem pop_after_fresh_write d k v :
  absent d k → pop k (exec (index_write k v) d) = (Returned v, d).
Proof.
  rewrite absent_keys, keys_fst. intros Hk. unfold uhd.pop.
  rewrite index_write_absent by done.
  assert (pop_from (_map d ++ [(k, v)]) k = Some (v, _map d ++ [])) as ->.
  { apply pop_from_Some. by exists (_map d), []. }
  rewrite app_nil_r. by destruct d.
Qed.

(** X10. The non-const [operator[]] is a get-or-default: a second call
    with the same key returns the same reference and changes nothing,
    and after the call the key is there, with the value it had or with
    [Val()] when the const lookup would have thrown. *)
Theorem index_mut_get_or_default d k :
  let d' := exec (index_mut k) d in
  index_mut k d' = (eval (index_mut k) d, d') ∧
  has_key d' k = true ∧
  index_const d' k =
    match index_const d k with
    | Returned v => Returned v
    | Thrown _ => Returned Val_default
    end.
Proof.
  unfold exec, eval, uhd.index_mut, has_key, uhd.index_const. simpl.
  destruct (ref_from (_map d) k) as [r|] eqn:Hr; simpl.
  - rewrite Hr. split; [done |].
    assert (k ∈ (_map d).*1) as Hin.
    { destruct (decide (k ∈ (_map d).*1)) as [|Hn]; [done |].
      apply ref_from_None in Hn. congruence. }
    split; [by apply has_key_from_true |].
    destruct (lookup_from (_map d) k) eqn:Hl; [done |].
    by apply lookup_from_None in Hl.
  - apply ref_from_None in Hr. unfold push_back.
    assert (ref_from (_map d ++ [(k, Val_default)]) k = Some (length (_map d)))
      as ->.
    { apply ref_from_Some. by exists (_map d), Val_default, []. }
    unfold back_ref. rewrite length_app. simpl.
    replace (length (_map d) + 1 - 1) with (length (_map d)) by lia.
    split; [done |]. split.
    + apply has_key_from_true. rewrite fmap_app, elem_of_app. right. left.
    + rewrite lookup_from_app_first by done.
      by apply lookup_from_None in Hr as ->.
Qed.

(** X11. In a dictionary whose keys are pairwise distinct, [keys] after
    the removal of [k] is [keys] before it without [k], the other keys
    in their order. *)
Theorem pop_keys d k :
  NoDup (keys d) → keys (exec (pop k) d) = filter (λ k', k' ≠ k) (keys d).
Proof.
  rewrite !keys_fst. destruct d as [m]. induction m as [|p m IH]; [done |].
  rewrite pop_cons. simpl in *. rewrite NoDup_cons. intros [Hp Hm].
  destruct (decide (p.1 = k)) as [Hk | Hk].
  - subst k. rewrite filter_cons_False by (by intros ?).
    by rewrite filter_other_key.
  - rewrite filter_cons_True by done. simpl. f_equal. by apply IH.
Qed.

(** X12. In a dictionary whose keys are pairwise distinct every stored
    pair is reachable: the lookup of the key at position [i] of [keys]
    returns the value at position [i] of [vals]. *)
Theorem lookup_by_position d i k v :
  NoDup (keys d) →
  keys d !! i = Some k → vals d !! i = Some v →
  index_const d k = Returned v.
Proof.
  rewrite keys_fst, vals_snd, !list_lookup_fmap. intros Hnd Hk Hv.
  destruct (_map d !! i) as [[k0 v0]|] eqn:Hi; simplify_eq/=.
  apply index_const_Returned, lookup_from_Some.
  exists (take i (_map d)), (drop (S i) (_map d)).
  assert (_map d = take i (_map d) ++ (k, v) :: drop (S i) (_map d)) as Hsplit.
  { by rewrite take_drop_middle. }
  split; [done |].
  rewrite Hsplit, fmap_app, fmap_cons in Hnd.
  apply NoDup_app in Hnd as (_ & Hdisj & _).
  intros Hin. apply (Hdisj k Hin). left.
Qed.

(** *** The range constructor against the indexed writes *)

(** X13. For a sequence of pairs with pairwise distinct keys, writing
    the pairs one after the other into the empty dictionary builds the
    dictionary the range constructor builds. *)
Theorem range_equals_writes (range : list pair_t) :
  NoDup range.*1 → mutate_all dict_void (writes range) = dict_range range.
Proof.
  intros Hnd. apply dict_eq.
  rewrite dict_range_map, map_writes_fresh; done.
Qed.

(** X14. When the range names a key more than once, the first pair
    given wins: the lookup in the constructed dictionary returns the
    value of the first pair of the range with that key. *)
Theorem range_first_wins (pre post : list pair_t) k v :
  k ∉ pre.*1 →
  index_const (dict_range (pre ++ (k, v) :: post)) k = Returned v.
Proof.
  intros Hpre. apply index_const_Returned.
  rewrite dict_range_map. by apply lookup_from_app_first.
Qed.

(** X15. When a sequence of indexed writes names a key more than once,
    the last write wins: after the writes the lookup returns the value
    of the last pair of the sequence with that key, whatever the
    dictionary held before. *)
Theorem writes_last_wins d (pre post : list pair_t) k v :
  k ∉ post.*1 →
  index_const (mutate_all d (writes (pre ++ (k, v) :: post))) k = Returned v.
Proof.
  intros Hpost. apply index_const_Returned.
  unfold uhd.mutate_all, writes. rewrite fmap_app, foldl_app. simpl.
  etrans; [by apply (lookup_writes_other _ post k) |].
  apply lookup_from_Some, index_write_first.
Qed.

(** *** Sequences of removals and writes *)

(** X16. Removing the keys that [keys] returned, in that order, empties
    the dictionary, also when a key is stored more than once. *)
Theorem pop_all_keys_empties d :
  mutate_all d (Remove <$> keys d) = dict_void.
Proof.
  rewrite keys_fst. destruct d as [m]. induction m as [|p m IH]; [done |].
  simpl in *.
  assert (exec (pop p.1) (Dict (p :: m)) = Dict m) as ->; [| exact IH].
  apply dict_eq. rewrite pop_cons. by rewrite decide_True.
Qed.

(** X17. Indexed writes to two different keys commute when the
    dictionary already has one of them. *)
Theorem index_writes_commute d k1 v1 k2 v2 :
  k1 ≠ k2 →
  has_key d k1 = true ∨ has_key d k2 = true →
  exec (index_write k1 v1) (exec (index_write k2 v2) d)
  = exec (index_write k2 v2) (exec (index_write k1 v1) d).
Proof.
  intros Hne Hhas. apply dict_eq.
  rewrite (index_write_eta d k2 v2), (index_write_eta d k1 v1).
  unfold has_key in Hhas. destruct d as [m]. simpl in *.
  induction m as [|p m IH]; [by destruct Hhas |].
  rewrite (index_write_cons p m k2 v2), (index_write_cons p m k1 v1).
  simpl in Hhas.
  destruct (decide (p.1 = k1)) as [Hp1 | Hp1];
    destruct (decide (p.1 = k2)) as [Hp2 | Hp2]; [congruence | ..].
  - rewrite !index_write_cons. simpl.
    by rewrite decide_True, decide_False by done.
  - rewrite !index_write_cons. simpl.
    by rewrite decide_False, decide_True by done.
  - rewrite !index_write_cons, !decide_False by done. by rewrite IH.
Qed.

(** X18. A removal and an indexed write of two different keys commute. *)
Theorem pop_index_write_commute d k1 k2 v :
  k1 ≠ k2 →
  exec (pop k1) (exec (index_write k2 v) d)
  = exec (index_write k2 v) (exec (pop k1) d).
Proof.
  intros Hne. apply dict_eq.
  rewrite (index_write_eta d k2 v), (index_write_eta (exec (pop k1) d)).
  rewrite (pop_eta d k1). destruct d as [m]. simpl.
  induction m as [|p m IH].
  - rewrite index_write_nil, pop_cons. simpl.
    by rewrite decide_False by congruence.
  - rewrite (index_write_cons p m), (pop_cons p m).
    destruct (decide (p.1 = k1)) as [Hp1 | Hp1];
      destruct (decide (p.1 = k2)) as [Hp2 | Hp2]; [congruence | ..].
    + rewrite pop_cons. by rewrite decide_True.
    + rewrite pop_cons, index_write_cons. simpl.
      by rewrite decide_False, decide_True by congruence.
    + rewrite pop_cons, index_write_cons, !decide_False by done.
      by rewrite <-IH.
Qed.

(** X19. Removals of two different keys commute. *)
Theorem pops_commute d k1 k2 :
  k1 ≠ k2 →
  exec (pop k1) (exec (pop k2) d) = exec (pop k2) (exec (pop k1) d).
Proof.
  intros Hne. apply dict_eq.
  rewrite (pop_eta (exec (pop k2) d)), (pop_eta (exec (pop k1) d)).
  rewrite (pop_eta d k1), (pop_eta d k2). destruct d as [m]. simpl.
  induction m as [|p m IH]; [done |].
  rewrite (pop_cons p m k1), (pop_cons p m k2).
  destruct (decide (p.1 = k1)) as [Hp1 | Hp1];
    destruct (decide (p.1 = k2)) as [Hp2 | Hp2]; [congruence | ..].
  - rewrite pop_cons. by rewrite decide_True.
  - rewrite pop_cons. by rewrite decide_True.
  - rewrite !pop_cons, !decide_False by done. by rewrite IH.
Qed.

End facts.

(** ** On [uhd::dict<std::string, int>] *)

(** C8. The exception thrown for a missing key does not carry the key:
    on the empty dictionary the lookup and the removal of the key a
    throw a [std::exception] whose [what()] is the generic text, while
    the message naming the key and the two element types is built and
    left behind in the [std::out_of_range] the exception was copied
    from. *)
Theorem key_not_found_payload_lost :
  string_int.index_const dict_void "a" = Thrown std_exception ∧
  eval (string_int.pop "a") dict_void = Thrown std_exception ∧
  what std_exception = "std::exception" ∧
  string_int.key_not_found_message "a" =
    "key " +:+ dquote +:+ "a" +:+ dquote +:+ " not found in dict(Ss, i)".
Proof. by vm_compute. Qed.

(** C1 as stated, for every dictionary, fails: the dictionary built
    from a range that names x twice still stores x in two pairs after
    an indexed write. *)
Lemma key_uniqueness_fails_after_range :
  ¬ (key_count (string_int.mutate_all string_int.twice_x [Write "y" 3%Z]) "x" ≤ 1).
Proof. vm_compute. lia. Qed.

(** C5 as stated, for every dictionary, fails: in the dictionary built
    from a range that names x twice, x is present with value 1, and
    after its removal [has_key] still answers true. *)
Lemma removal_leaves_second_pair :
  ¬ (string_int.index_const string_int.twice_x "x" = Returned 1%Z →
     eval (string_int.pop "x") string_int.twice_x = Returned 1%Z ∧
     has_key (exec (string_int.pop "x") string_int.twice_x) "x" = false ∧
     string_int.index_const (exec (string_int.pop "x") string_int.twice_x) "x"
       = Thrown (string_int.key_not_found_in_dict "x")).
Proof.
  intros Hclaim. destruct Hclaim as (_ & Hhas & _); [done |].
  vm_compute in Hhas. discriminate.
Qed.

(** [key_uniqueness] on the dictionary of x -> 10, y -> 20, with a
    removal that throws among the calls. *)
Lemma key_uniqueness_witness :
  NoDup (keys string_int.x10_y20) ∧
  let d0 := string_int.mutate_all string_int.x10_y20
              [Write "a" 1%Z; Remove "x"; Remove "q"; Write "y" 7%Z] in
  let d1 := exec (string_int.index_write "a" 1%Z) d0 in
  let d2 := exec (string_int.index_write "a" 3%Z) d1 in
  (∀ k', key_count d0 k' ≤ 1) ∧
  string_int.index_const d2 "a" = Returned 3%Z ∧
  size d2 = size d1 ∧ key_count d2 "a" = 1.
Proof.
  assert (NoDup (keys string_int.x10_y20)) as Hnd.
  { vm_compute. apply (bool_decide_unpack _). vm_compute. exact I. }
  split; [exact Hnd |].
  apply (key_uniqueness string_int.Val_default string_int.lexical_cast
           string_int.typeid_Key string_int.typeid_Val). exact Hnd.
Defined.

(** [order_preservation] on the writes a -> 1, b -> 2 and then a -> 3. *)
Lemma order_preservation_witness :
  NoDup [("a", 1%Z); ("b", 2%Z)].*1 ∧
  Forall (λ u : string * Z, u.1 ∈ [("a", 1%Z); ("b", 2%Z)].*1) [("a", 3%Z)] ∧
  keys (string_int.mutate_all dict_void (writes [("a", 1%Z); ("b", 2%Z)]))
    = ["a"; "b"] ∧
  keys (string_int.mutate_all
          (string_int.mutate_all dict_void (writes [("a", 1%Z); ("b", 2%Z)]))
          (writes [("a", 3%Z)])) = ["a"; "b"].
Proof.
  assert (NoDup [("a", 1%Z); ("b", 2%Z)].*1) as Hnd.
  { vm_compute. apply (bool_decide_unpack _). vm_compute. exact I. }
  assert (Forall (λ u : string * Z, u.1 ∈ [("a", 1%Z); ("b", 2%Z)].*1)
            [("a", 3%Z)]) as Hups.
  { apply (bool_decide_unpack _). vm_compute. exact I. }
  split_and!; [exact Hnd | exact Hups | ..];
    apply (order_preservation string_int.Val_default string_int.lexical_cast
             string_int.typeid_Key string_int.typeid_Val
             [("a", 1%Z); ("b", 2%Z)] [("a", 3%Z)] Hnd Hups).
Defined.

(** [removal_postcondition] on the removal of x from x -> 10, y -> 20. *)
Lemma removal_postcondition_witness :
  string_int.index_const string_int.x10_y20 "x" = Returned 10%Z ∧
  ∃ pre post, first_at string_int.x10_y20 "x" 10%Z pre post ∧
    string_int.pop "x" string_int.x10_y20 = (Returned 10%Z, Dict (pre ++ post)) ∧
    (key_count string_int.x10_y20 "x" = 1 →
     has_key (exec (string_int.pop "x") string_int.x10_y20) "x" = false ∧
     string_int.index_const (exec (string_int.pop "x") string_int.x10_y20) "x"
       = Thrown (string_int.key_not_found_in_dict "x")).
Proof.
  split; [reflexivity |].
  apply (removal_postcondition string_int.lexical_cast string_int.typeid_Key
           string_int.typeid_Val string_int.x10_y20 "x" 10%Z).
  reflexivity.
Defined.

(** [failed_pop_atomic] on the removal of x from y -> 20. *)
Lemma failed_pop_atomic_witness :
  absent (Dict [("y", 20%Z)]) "x" ∧
  string_int.pop "x" (Dict [("y", 20%Z)])
    = (Thrown (string_int.key_not_found_in_dict "x"), Dict [("y", 20%Z)]) ∧
  _map (exec (string_int.pop "x") (Dict [("y", 20%Z)])) = [("y", 20%Z)] ∧
  size (exec (string_int.pop "x") (Dict [("y", 20%Z)])) = 1.
Proof.
  assert (absent (Dict [("y", 20%Z)]) "x") as Habs.
  { intros p Hp. simpl in Hp. apply list_elem_of_singleton in Hp. by subst p. }
  split; [exact Habs |].
  apply (failed_pop_atomic string_int.lexical_cast string_int.typeid_Key
           string_int.typeid_Val (Dict [("y", 20%Z)]) "x" Habs).
Defined.

(** The scenarios of the specification. *)

Example scenario_insert_a_b_a :
  let d := string_int.mutate_all dict_void
             [Write "a" 1%Z; Write "b" 2%Z; Write "a" 3%Z] in
  size d = 2 ∧ keys d = ["a"; "b"] ∧
  string_int.index_const d "a" = Returned 3%Z ∧
  string_int.index_const d "b" = Returned 2%Z.
Proof. by vm_compute. Qed.

Example scenario_remove_x :
  let d := string_int.x10_y20 in
  string_int.pop "x" d = (Returned 10%Z, Dict [("y", 20%Z)]) ∧
  keys (exec (string_int.pop "x") d) = ["y"] ∧
  eval (string_int.pop "x") (exec (string_int.pop "x") d)
    = Thrown (string_int.key_not_found_in_dict "x").
Proof. by vm_compute. Qed.

Example scenario_default_then_assign :
  ∃ r d', string_int.index_mut "z" dict_void = (Returned r, d') ∧
    deref d' r = Some 0%Z ∧
    string_int.index_const (exec (assign r 5%Z) d') "z" = Returned 5%Z.
Proof. eexists _, _. by vm_compute. Qed.

(** ** The further properties at concrete dictionaries *)

(** [index_write_frame]: a write to x in x -> 10, y -> 20, seen from y. *)
Lemma index_write_frame_witness :
  "y" ≠ "x" ∧
  string_int.index_const (exec (string_int.index_write "x" 7%Z) string_int.x10_y20) "y"
    = string_int.index_const string_int.x10_y20 "y" ∧
  has_key (exec (string_int.index_write "x" 7%Z) string_int.x10_y20) "y"
    = has_key string_int.x10_y20 "y".
Proof.
  split; [discriminate |].
  apply (index_write_frame string_int.Val_default string_int.lexical_cast
           string_int.typeid_Key string_int.typeid_Val string_int.x10_y20 "x" 7%Z "y").
  discriminate.
Defined.

(** [pop_frame]: the removal of x from x -> 10, y -> 20, seen from y. *)
Lemma pop_frame_witness :
  "y" ≠ "x" ∧
  string_int.index_const (exec (string_int.pop "x") string_int.x10_y20) "y"
    = string_int.index_const string_int.x10_y20 "y" ∧
  has_key (exec (string_int.pop "x") string_int.x10_y20) "y"
    = has_key string_int.x10_y20 "y".
Proof.
  split; [discriminate |].
  apply (pop_frame string_int.lexical_cast string_int.typeid_Key
           string_int.typeid_Val string_int.x10_y20 "x" "y").
  discriminate.
Defined.

(** [pop_after_fresh_write]: z written into x -> 10, y -> 20 and removed. *)
Lemma pop_after_fresh_write_witness :
  absent string_int.x10_y20 "z" ∧
  string_int.pop "z" (exec (string_int.index_write "z" 5%Z) string_int.x10_y20)
    = (Returned 5%Z, string_int.x10_y20).
Proof.
  assert (absent string_int.x10_y20 "z") as Habs.
  { intros p Hp. vm_compute in Hp.
    apply elem_of_cons in Hp as [-> | Hp]; [discriminate |].
    apply list_elem_of_singleton in Hp as ->. discriminate. }
  split; [exact Habs |].
  apply (pop_after_fresh_write string_int.Val_default string_int.lexical_cast
           string_int.typeid_Key string_int.typeid_Val string_int.x10_y20 "z" 5%Z Habs).
Defined.

(** [pop_keys]: the removal of x from x -> 10, y -> 20. *)
Lemma pop_keys_witness :
  NoDup (keys string_int.x10_y20) ∧
  keys (exec (string_int.pop "x") string_int.x10_y20)
    = filter (λ k', k' ≠ "x") (keys string_int.x10_y20).
Proof.
  assert (NoDup (keys string_int.x10_y20)) as Hnd.
  { vm_compute. apply (bool_decide_unpack _). vm_compute. exact I. }
  split; [exact Hnd |].
  apply (pop_keys string_int.lexical_cast string_int.typeid_Key
           string_int.typeid_Val string_int.x10_y20 "x" Hnd).
Defined.

(** [lookup_by_position]: position 1 of x -> 10, y -> 20. *)
Lemma lookup_by_position_witness :
  NoDup (keys string_int.x10_y20) ∧
  keys string_int.x10_y20 !! 1 = Some "y" ∧
  vals string_int.x10_y20 !! 1 = Some 20%Z ∧
  string_int.index_const string_int.x10_y20 "y" = Returned 20%Z.
Proof.
  assert (NoDup (keys string_int.x10_y20)) as Hnd.
  { vm_compute. apply (bool_decide_unpack _). vm_compute. exact I. }
  split_and!; [exact Hnd | reflexivity | reflexivity |].
  apply (lookup_by_position string_int.lexical_cast string_int.typeid_Key
           string_int.typeid_Val string_int.x10_y20 1 "y" 20%Z Hnd);
    reflexivity.
Defined.

(** [range_equals_writes]: the range x -> 10, y -> 20. *)
Lemma range_equals_writes_witness :
  NoDup [("x", 10%Z); ("y", 20%Z)].*1 ∧
  string_int.mutate_all dict_void (writes [("x", 10%Z); ("y", 20%Z)])
    = string_int.x10_y20.
Proof.
  assert (NoDup [("x", 10%Z); ("y", 20%Z)].*1) as Hnd.
  { vm_compute. apply (bool_decide_unpack _). vm_compute. exact I. }
  split; [exact Hnd |].
  apply (range_equals_writes string_int.Val_default string_int.lexical_cast
           string_int.typeid_Key string_int.typeid_Val [("x", 10%Z); ("y", 20%Z)] Hnd).
Defined.

(** [range_first_wins]: the range y -> 0, x -> 1, x -> 2. *)
Lemma range_first_wins_witness :
  ("x" ∉ [("y", 0%Z)].*1) ∧
  string_int.index_const
    (dict_range ([("y", 0%Z)] ++ ("x", 1%Z) :: [("x", 2%Z)])) "x" = Returned 1%Z.
Proof.
  assert ("x" ∉ [("y", 0%Z)].*1) as Hpre.
  { apply (bool_decide_unpack _). vm_compute. exact I. }
  split; [exact Hpre |].
  apply (range_first_wins string_int.lexical_cast string_int.typeid_Key
           string_int.typeid_Val [("y", 0%Z)] [("x", 2%Z)] "x" 1%Z Hpre).
Defined.

(** [writes_last_wins]: the writes x -> 1, x -> 2, y -> 0 into the
    dictionary that names x twice. *)
Lemma writes_last_wins_witness :
  ("x" ∉ [("y", 0%Z)].*1) ∧
  string_int.index_const
    (string_int.mutate_all string_int.twice_x
       (writes ([("x", 1%Z)] ++ ("x", 2%Z) :: [("y", 0%Z)]))) "x" = Returned 2%Z.
Proof.
  assert ("x" ∉ [("y", 0%Z)].*1) as Hpost.
  { apply (bool_decide_unpack _). vm_compute. exact I. }
  split; [exact Hpost |].
  apply (writes_last_wins string_int.Val_default string_int.lexical_cast
           string_int.typeid_Key string_int.typeid_Val string_int.twice_x
           [("x", 1%Z)] [("y", 0%Z)] "x" 2%Z Hpost).
Defined.

(** [index_writes_commute]: writes to x, stored, and to z, not stored. *)
Lemma index_writes_commute_witness :
  "x" ≠ "z" ∧
  (has_key string_int.x10_y20 "x" = true ∨ has_key string_int.x10_y20 "z" = true) ∧
  exec (string_int.index_write "x" 1%Z)
    (exec (string_int.index_write "z" 2%Z) string_int.x10_y20)
  = exec (string_int.index_write "z" 2%Z)
      (exec (string_int.index_write "x" 1%Z) string_int.x10_y20).
Proof.
  split_and!; [discriminate | left; reflexivity |].
  apply (index_writes_commute string_int.Val_default string_int.x10_y20
           "x" 1%Z "z" 2%Z); [discriminate | left; reflexivity].
Defined.

(** [pop_index_write_commute]: the removal of x and a write to z. *)
Lemma pop_index_write_commute_witness :
  "x" ≠ "z" ∧
  exec (string_int.pop "x")
    (exec (string_int.index_write "z" 2%Z) string_int.x10_y20)
  = exec (string_int.index_write "z" 2%Z)
      (exec (string_int.pop "x") string_int.x10_y20).
Proof.
  split; [discriminate |].
  apply (pop_index_write_commute string_int.Val_default string_int.lexical_cast
           string_int.typeid_Key string_int.typeid_Val string_int.x10_y20 "x" "z" 2%Z).
  discriminate.
Defined.

(** [pops_commute]: the removals of x and of y. *)
Lemma pops_commute_witness :
  "x" ≠ "y" ∧
  exec (string_int.pop "x") (exec (string_int.pop "y") string_int.x10_y20)
  = exec (string_int.pop "y") (exec (string_int.pop "x") string_int.x10_y20).
Proof.
  split; [discriminate |].
  apply (pops_commute string_int.lexical_cast string_int.typeid_Key
           string_int.typeid_Val string_int.x10_y20 "x" "y").
  discriminate.
Defined.

End uhd_facts.
